(** * ImageEnabledFirestoreVectorStore.add_images

    A shallow embedding of
    [samples/multimodal/retrievers/firestore/image_enabled_firestore_vectorstore.py].

    The method validates its three arguments, then walks the image paths
    once more, asking the embedding service for a vector per image and
    staging a merge-write per image into a write batch, commits the batch
    and returns the document ids it used.

    The embedding service, the id allocator of the collection and the
    document database are collaborators of the class.  They appear here as
    section variables (the service, the allocator) and as a small model of
    a document collection (a finite map from document ids to documents,
    a document being a finite map from field names to values).  Every call
    made to a collaborator is recorded in a log, so that statements about
    the order and the number of calls can be made. *)

From stdpp Require Import gmap strings list fin_maps.

Open Scope string_scope.
Open Scope list_scope.
Open Scope nat_scope.

(** ** Iterables

    [image_paths] is annotated [Iterable[str]].  Python distinguishes an
    iterable that can be traversed again and again (a list, a tuple) from
    a one-shot iterator (a generator, [iter(...)], [map(...)]), which is
    left exhausted by its first traversal. *)

Inductive iterable : Type :=
  | Seq (items : list string)        (* list, tuple: re-iterable *)
  | Iter (remaining : list string).  (* iterator, generator: one-shot *)

(** A complete traversal ([list(it)], or a [for] loop run to its end):
    the items it produces and the iterable as it is left afterwards. *)
Definition iterate (it : iterable) : list string * iterable :=
  match it with
  | Seq items => (items, Seq items)
  | Iter remaining => (remaining, Iter [])
  end.

(** The number of images the iterable yields, [len(list(image_paths))]. *)
Definition images_len (it : iterable) : nat := length (iterate it).1.

(** What a second traversal of the iterable yields, after a first one has
    been completed. *)
Definition second_pass (it : iterable) : list string :=
  (iterate (iterate it).2).1.

(** Truthiness of an [Optional[List[_]]]: [None] and [[]] are falsy. *)
Definition truthy {A : Type} (xs : option (list A)) : bool :=
  match xs with
  | Some (_ :: _) => true
  | _ => false
  end.

(** [not xs or len(xs) == images_len] *)
Definition len_match {A : Type} (xs : option (list A)) (images_len : nat) : bool :=
  match xs with
  | Some (x :: l) => Nat.eqb (length (x :: l)) images_len
  | _ => true
  end.

(** [len(xs)] of an optional list, [0] when it is absent; only used to
    state properties, the code never takes the length of [None]. *)
Definition opt_len {A : Type} (xs : option (list A)) : nat :=
  match xs with
  | Some l => length l
  | None => 0
  end.

(** The configured field names of the store ([__init__]). *)
Record config : Type := Config {
  content_field : string;
  metadata_field : string;
  embedding_field : string
}.

(** The defaults of [__init__]. *)
Definition default_config : config :=
  {| content_field := "content";
     metadata_field := "metadata";
     embedding_field := "embedding" |}.

(** The three fields of a document record are three different fields. *)
Definition distinct_fields (cfg : config) : Prop :=
  content_field cfg ≠ embedding_field cfg ∧
  content_field cfg ≠ metadata_field cfg ∧
  embedding_field cfg ≠ metadata_field cfg.

Inductive exn : Type :=
  | ValueError (msg : string)
  | IndexError.

Definition msg_no_images : string :=
  "No images provided to add to the vector store.".
Definition msg_metadatas : string :=
  "The length of metadatas must be the same as the length of images or zero.".
Definition msg_ids : string :=
  "The length of ids must be the same as the length of images or zero.".

Section Store.

(** [vector]: what the embedding service returns for an image;
    [dict]: a metadata mapping; [any]: the value of a keyword argument. *)
Context {vector dict any : Type}.

(** The value of a field of a record. *)
Inductive value : Type :=
  | VNone                    (* None *)
  | VStr (s : string)
  | VVector (v : vector)     (* Vector(image_embs) *)
  | VDict (d : dict).

(** A Python dict with string keys: the [data] of a write, and a stored
    document. *)
Abbreviation fields := (gmap string value).

(** A pending write of a batch: the id of the document and its data.
    Every write of this method is staged with [merge=True]. *)
Abbreviation write := (string * gmap string value)%type.

Inductive event : Type :=
  | EvEmbedImage (image_path : string)   (* embedding_service.embed_image *)
  | EvBatch                              (* client.batch() *)
  | EvSet (doc : string) (data : fields) (* db_batch.set(doc, data, merge=True) *)
  | EvCommit (writes : list write).      (* db_batch.commit() *)

(** The state outside the call: the documents of the collection and the
    number of ids the collection has generated so far. *)
Record world : Type := World {
  store : gmap string fields;
  generated : nat
}.

(** The outcome of a computation: an exception or a value, the state it
    leaves, and the calls it made, oldest first. *)
Record outcome (A : Type) : Type := Outcome {
  res : exn + A;
  final : world;
  log : list event
}.
Global Arguments Outcome {A} _ _ _.
Global Arguments res {A} _.
Global Arguments final {A} _.
Global Arguments log {A} _.

Definition M (A : Type) : Type := world → outcome A.

Definition ret {A} (a : A) : M A := λ w, Outcome (inr a) w [].
Definition raise {A} (e : exn) : M A := λ w, Outcome (inl e) w [].
Definition bind {A B} (m : M A) (f : A → M B) : M B := λ w,
  let o := m w in
  match res o with
  | inl e => Outcome (inl e) (final o) (log o)
  | inr a => let o' := f a (final o) in
             Outcome (res o') (final o') (log o ++ log o')
  end.

Notation "'let*' x ':=' m 'in' k" := (bind m (λ x, k))
  (at level 10, x name, m at level 100, k at level 200).
Notation "m ;;; k" := (bind m (λ _, k))
  (at level 100, right associativity).

(** ** The collaborators *)

(** The embedding service: the vector of an image. *)
Variable embedding_service : string → vector.
(** The id the collection generates on its [k]-th request for one. *)
Variable auto_id : nat → string.

Definition embed_image (image_path : string) : M vector := λ w,
  Outcome (inr (embedding_service image_path)) w [EvEmbedImage image_path].

Definition client_batch : M (list write) := λ w,
  Outcome (inr []) w [EvBatch].

(** [collection.document(doc_id)]: a handle on the document of that id,
    or of a newly generated id when [doc_id] is [None].  The handle is
    represented by its id ([doc.id]); nothing is sent to the database. *)
Definition collection_document (doc_id : option string) : M string := λ w,
  match doc_id with
  | Some id => Outcome (inr id) w []
  | None =>
      Outcome (inr (auto_id (generated w)))
              {| store := store w; generated := S (generated w) |} []
  end.

Definition batch_set (db_batch : list write) (doc : string) (data : fields)
  : M (list write) := λ w,
  Outcome (inr (db_batch ++ [(doc, data)])) w [EvSet doc data].

(** A merge-write: the fields of [data] are set, the other fields of a
    document already stored under that id are kept. *)
Definition merge_write (st : gmap string fields) (wr : write)
  : gmap string fields :=
  <[wr.1 := wr.2 ∪ default ∅ (st !! wr.1)]> st.

Definition batch_commit (db_batch : list write) : M unit := λ w,
  Outcome (inr tt)
          {| store := foldl merge_write (store w) db_batch;
             generated := generated w |}
          [EvCommit db_batch].

(** [xs[i] if xs else None] *)
Definition subscript_if {A} (xs : option (list A)) (i : nat) : M (option A) :=
  if truthy xs then
    match default [] xs !! i with
    | Some x => ret (Some x)
    | None => raise IndexError
    end
  else ret None.

(** ** add_images *)

Section AddImages.

Variable cfg : config.

(** The dict literal of the loop body; its keys are inserted in the
    order they are written, a later equal key replacing an earlier. *)
Definition record_data (image_embs : vector) (metadata : option dict) : fields :=
  <[metadata_field cfg := from_option VDict VNone metadata]>
    (<[embedding_field cfg := VVector image_embs]>
       (<[content_field cfg := VStr ""]> ∅)).

(** The body of [for i, image_path in enumerate(image_paths)], over
    the items the traversal produces, from index [i] on. *)
Fixpoint add_images_loop (metadatas : option (list dict))
    (ids : option (list string)) (i : nat) (items : list string)
    (_ids : list string) (db_batch : list write)
  : M (list string * list write) :=
  match items with
  | [] => ret (_ids, db_batch)
  | image_path :: items =>
      let* image_embs := embed_image image_path in
      let* doc_id := subscript_if ids i in
      let* doc := collection_document doc_id in
      let _ids := _ids ++ [doc] in
      let* metadata := subscript_if metadatas i in
      let data := record_data image_embs metadata in
      let* db_batch := batch_set db_batch doc data in
      add_images_loop metadatas ids (S i) items _ids db_batch
  end.

Definition add_images (image_paths : iterable)
    (metadatas : option (list dict)) (ids : option (list string))
    (kwargs : list (string * any)) : M (list string) :=
  let '(listed, image_paths) := iterate image_paths in
  let images_len := length listed in
  let ids_len_match := len_match ids images_len in
  let metadatas_len_match := len_match metadatas images_len in
  if Nat.eqb images_len 0 then raise (ValueError msg_no_images)
  else if negb metadatas_len_match then raise (ValueError msg_metadatas)
  else if negb ids_len_match then raise (ValueError msg_ids)
  else
    let* db_batch := client_batch in
    let* r := add_images_loop metadatas ids 0 (iterate image_paths).1 [] db_batch in
    batch_commit r.2 ;;;
    ret r.1.

(** ** What the loop computes

    The writes the loop stages and the calls it makes, as functions of the
    items it walks; [add_images_loop_spec] below relates them to the loop. *)

(** [xs[i]] for a truthy [xs], nothing for a falsy one. *)
Definition sel {A} (xs : option (list A)) (i : nat) : option A :=
  if truthy xs then default [] xs !! i else None.

(** A truthy [xs] has at least [n] entries. *)
Definition covers {A} (xs : option (list A)) (n : nat) : Prop :=
  truthy xs = true → n ≤ opt_len xs.

(** The writes staged for [items], the first one at index [i], when the
    collection has generated [g] ids so far. *)
Fixpoint loop_writes (metadatas : option (list dict))
    (ids : option (list string)) (i g : nat) (items : list string)
  : list write :=
  match items with
  | [] => []
  | image_path :: items =>
      (from_option id (auto_id g) (sel ids i),
       record_data (embedding_service image_path) (sel metadatas i))
      :: loop_writes metadatas ids (S i) (if truthy ids then g else S g) items
  end.

(** The calls of the loop: per item, the embedding call, then the staging
    of its write. *)
Fixpoint loop_log (items : list string) (writes : list write) : list event :=
  match items, writes with
  | image_path :: items, wr :: writes =>
      EvEmbedImage image_path :: EvSet wr.1 wr.2 :: loop_log items writes
  | _, _ => []
  end.

End AddImages.

End Store.

Arguments value : clear implicits.
Arguments event : clear implicits.
Arguments world : clear implicits.
Arguments outcome : clear implicits.

Notation "'let*' x ':=' m 'in' k" := (bind m (λ x, k))
  (at level 10, x name, m at level 100, k at level 200).
Notation "m ;;; k" := (bind m (λ _, k))
  (at level 100, right associativity).

(** ** Reading a log *)

(** The images the embedding service was asked for, in call order. *)
Definition embed_calls {vector dict} (l : list (event vector dict))
  : list string :=
  omap (λ ev, match ev with EvEmbedImage p => Some p | _ => None end) l.

(** The writes staged into the batch, in call order. *)
Definition staged {vector dict} (l : list (event vector dict))
  : list (string * gmap string (value vector dict)) :=
  omap (λ ev, match ev with EvSet doc data => Some (doc, data) | _ => None end) l.

(** The batches committed, in call order. *)
Definition commits {vector dict} (l : list (event vector dict))
  : list (list (string * gmap string (value vector dict))) :=
  omap (λ ev, match ev with EvCommit writes => Some writes | _ => None end) l.

(** ** A concrete store

    Vectors of integers stand for the embeddings, association lists for the
    metadata mappings; the embedding of an image is made from the length of
    its path, and the [k]-th generated id is ["auto"] followed by [k]
    primes. *)

Definition demo_vector : Type := list Z.
Definition demo_dict : Type := list (string * string).
Definition demo_any : Type := Z.

Definition demo_embedding (image_path : string) : demo_vector :=
  [Z.of_nat (String.length image_path); 1%Z].

Fixpoint demo_auto_id (k : nat) : string :=
  match k with
  | 0 => "auto"
  | S k => String.append (demo_auto_id k) "'"
  end.

Definition demo_add_images :=
  @add_images demo_vector demo_dict demo_any demo_embedding demo_auto_id.

(** An empty collection. *)
Definition empty_world : world demo_vector demo_dict :=
  {| store := ∅; generated := 0 |}.

(** A collection holding one document, ["doc1"], with a caption, some
    metadata and a text content. *)
Definition doc1 : gmap string (value demo_vector demo_dict) :=
  <["caption" := VStr "a cat"]>
    (<["metadata" := VDict [("source", "upload")]]>
       (<["content" := VStr "old text"]> ∅)).

Definition one_doc_world : world demo_vector demo_dict :=
  {| store := <["doc1" := doc1]> ∅; generated := 0 |}.

(** A store whose content field and metadata field have been given the
    same name. *)
Definition shared_name_config : config :=
  {| content_field := "text";
     metadata_field := "text";
     embedding_field := "embedding" |}.


(** * Properties *)

(** ** The argument checks *)

Lemma len_match_false {A} (xs : option (list A)) (n : nat) :
  len_match xs n = false ↔ opt_len xs ≠ 0 ∧ opt_len xs ≠ n.
Proof.
  destruct xs as [[|x l]|]; simpl.
  - split; [discriminate | intros [H _]; by destruct H].
  - destruct n as [|n]; [by split|].
    rewrite Nat.eqb_neq. split; [intros H; split; lia | intros [_ H]; lia].
  - split; [discriminate | intros [H _]; by destruct H].
Qed.

Lemma len_match_true {A} (xs : option (list A)) (n : nat) :
  len_match xs n = true ↔ opt_len xs = 0 ∨ opt_len xs = n.
Proof.
  destruct (len_match xs n) eqn:E.
  - split; [intros _ | done].
    destruct (decide (opt_len xs = 0)) as [|H0]; [by left|].
    destruct (decide (opt_len xs = n)) as [|Hn]; [by right|].
    assert (len_match xs n = false) by (by apply len_match_false).
    congruence.
  - apply len_match_false in E as [H0 Hn]. split; [done | intros [?|?]; done].
Qed.

Lemma truthy_opt_len {A} (xs : option (list A)) :
  truthy xs = true ↔ opt_len xs ≠ 0.
Proof. destruct xs as [[|x l]|]; simpl; split; done. Qed.

Lemma len_match_covers {A} (xs : option (list A)) (n : nat) :
  len_match xs n = true → covers xs n.
Proof.
  intros H Ht. apply len_match_true in H. apply truthy_opt_len in Ht. lia.
Qed.

Lemma covers_le {A} (xs : option (list A)) (n m : nat) :
  m ≤ n → covers xs n → covers xs m.
Proof. intros Hle H Ht. specialize (H Ht). lia. Qed.

Lemma sel_covered {A} (xs : option (list A)) (i : nat) :
  truthy xs = true → covers xs (S i) → is_Some (sel xs i).
Proof.
  intros Ht H. specialize (H Ht). unfold sel. rewrite Ht.
  apply lookup_lt_is_Some_2. destruct xs; simpl in *; [lia | done].
Qed.

Lemma sel_falsy {A} (xs : option (list A)) (i : nat) :
  truthy xs = false → sel xs i = None.
Proof. unfold sel. by intros ->. Qed.

Lemma sel_some {A} (l : list A) (i : nat) :
  sel (Some l) i = l !! i.
Proof. unfold sel. by destruct l. Qed.

Section Properties.

Context {vector dict any : Type}.
Variable embedding_service : string → vector.
Variable auto_id : nat → string.

Local Abbreviation add_images :=
  (@add_images vector dict any embedding_service auto_id).
Local Abbreviation add_images_loop :=
  (@add_images_loop vector dict embedding_service auto_id).
Local Abbreviation loop_writes :=
  (@loop_writes vector dict embedding_service auto_id).
Local Abbreviation world := (world vector dict).
Local Abbreviation event := (event vector dict).

Lemma subscript_if_covered {A} (xs : option (list A)) (i : nat) (w : world) :
  covers xs (S i) →
  subscript_if xs i w = Outcome (inr (sel xs i)) w [].
Proof.
  intros H. unfold subscript_if. destruct (truthy xs) eqn:Ht.
  - destruct (sel_covered xs i Ht H) as [x Hx].
    unfold sel in *. rewrite Ht in *. by rewrite Hx.
  - unfold sel. by rewrite Ht.
Qed.

(** ** Sequencing *)

Lemma bind_ok {A B} (m : M A) (f : A → M B) (w w1 : world) a l1 :
  m w = Outcome (inr a) w1 l1 →
  bind m f w = Outcome (res (f a w1)) (final (f a w1)) (l1 ++ log (f a w1)).
Proof. intros H. unfold bind. by rewrite H. Qed.

Lemma bind_raise {A B} (m : M A) (f : A → M B) (w w1 : world) e l1 :
  m w = Outcome (inl e) w1 l1 →
  bind m f w = Outcome (inl e) w1 l1.
Proof. intros H. unfold bind. by rewrite H. Qed.

(** ** The loop *)

Lemma add_images_loop_cons cfg metadatas ids i image_path items _ids db_batch :
  add_images_loop cfg metadatas ids i (image_path :: items) _ids db_batch
  = (let* image_embs := embed_image embedding_service image_path in
     let* doc_id := subscript_if ids i in
     let* doc := collection_document auto_id doc_id in
     let* metadata := subscript_if metadatas i in
     let* db_batch :=
       batch_set db_batch doc (record_data cfg image_embs metadata) in
     add_images_loop cfg metadatas ids (S i) items (_ids ++ [doc]) db_batch).
Proof. reflexivity. Qed.

Lemma collection_document_sel ids i (w : world) :
  covers ids (S i) →
  collection_document auto_id (sel ids i) w
  = Outcome (inr (from_option id (auto_id (generated w)) (sel ids i)))
      {| store := store w;
         generated := if truthy ids then generated w else S (generated w) |}
      [].
Proof.
  intros H. unfold collection_document. destruct (truthy ids) eqn:Ht.
  - destruct (sel_covered ids i Ht H) as [x ->]. by destruct w.
  - unfold sel. by rewrite Ht.
Qed.

Lemma add_images_loop_spec cfg metadatas ids items :
  ∀ (i : nat) (_ids : list string) db_batch (w : world),
    covers ids (i + length items) →
    covers metadatas (i + length items) →
    let writes := loop_writes cfg metadatas ids i (generated w) items in
    add_images_loop cfg metadatas ids i items _ids db_batch w
    = Outcome (inr (_ids ++ writes.*1, db_batch ++ writes))
        {| store := store w;
           generated := if truthy ids then generated w
                        else generated w + length items |}
        (loop_log items writes).
Proof.
  induction items as [|image_path items IH]; intros i _ids db_batch w Hi Hm.
  - simpl. unfold ret. rewrite !app_nil_r, Nat.add_0_r.
    destruct w; by destruct (truthy ids).
  - simpl in Hi, Hm.
    assert (covers ids (S i)) as Hi1 by (eapply covers_le; [|exact Hi]; lia).
    assert (covers metadatas (S i)) as Hm1 by (eapply covers_le; [|exact Hm]; lia).
    replace (i + S (length items)) with (S i + length items) in Hi, Hm by lia.
    rewrite add_images_loop_cons.
    erewrite bind_ok by reflexivity.
    erewrite bind_ok by (by apply subscript_if_covered).
    erewrite bind_ok by (by apply collection_document_sel).
    erewrite bind_ok by (by apply subscript_if_covered).
    erewrite bind_ok by reflexivity.
    rewrite IH by done.
    simpl. rewrite <- !app_assoc. simpl. f_equal.
    destruct (truthy ids); [done|]. f_equal. lia.
Qed.

(** ** The staged writes *)

Lemma loop_writes_lookup cfg metadatas ids items :
  ∀ (i g k : nat),
    loop_writes cfg metadatas ids i g items !! k
    = (λ image_path,
         (from_option id (auto_id (if truthy ids then g else g + k))
            (sel ids (i + k)),
          record_data cfg (embedding_service image_path)
            (sel metadatas (i + k)))) <$> items !! k.
Proof.
  induction items as [|image_path items IH]; intros i g k; [done|].
  destruct k as [|k]; simpl.
  - rewrite !Nat.add_0_r. by destruct (truthy ids).
  - rewrite IH. replace (S i + k) with (i + S k) by lia.
    destruct (truthy ids); [done|].
    by replace (S g + k) with (g + S k) by lia.
Qed.

Lemma loop_writes_length cfg metadatas ids items :
  ∀ (i g : nat), length (loop_writes cfg metadatas ids i g items) = length items.
Proof. induction items as [|p items IH]; intros i g; simpl; [done|]. by rewrite IH. Qed.

Lemma loop_writes_elem cfg metadatas ids items i g wr :
  wr ∈ loop_writes cfg metadatas ids i g items →
  ∃ k image_path,
    items !! k = Some image_path ∧
    wr.2 = record_data cfg (embedding_service image_path) (sel metadatas (i + k)).
Proof.
  intros [k Hk]%list_elem_of_lookup. rewrite loop_writes_lookup in Hk.
  destruct (items !! k) as [image_path|] eqn:E; [|done].
  exists k, image_path. split; [done|]. simpl in Hk. by inversion Hk.
Qed.

(** With ids supplied, one per item, the writes go to these ids. *)
Lemma loop_writes_ids cfg metadatas (l : list string) items g :
  items ≠ [] → length l = length items →
  (loop_writes cfg metadatas (Some l) 0 g items).*1 = l.
Proof.
  intros Hne Hlen. apply list_eq. intros k.
  rewrite list_lookup_fmap, loop_writes_lookup, sel_some. simpl.
  destruct (items !! k) as [p|] eqn:E; simpl.
  - destruct (lookup_lt_is_Some_2 l k) as [x Hx].
    { apply lookup_lt_Some in E. lia. }
    by rewrite Hx.
  - symmetry. apply lookup_ge_None. apply lookup_ge_None in E. lia.
Qed.

(** Without ids, the writes go to the ids the collection generates. *)
Lemma loop_writes_auto_ids cfg metadatas ids items g :
  truthy ids = false →
  (loop_writes cfg metadatas ids 0 g items).*1
  = (λ k, auto_id (g + k)) <$> seq 0 (length items).
Proof.
  intros Hf. apply list_eq. intros k.
  rewrite !list_lookup_fmap, loop_writes_lookup, Hf, sel_falsy by done.
  destruct (items !! k) as [p|] eqn:E; simpl.
  - rewrite lookup_seq_lt; [done|]. by apply lookup_lt_Some in E.
  - rewrite lookup_seq_ge; [done|]. by apply lookup_ge_None in E.
Qed.

(** ** The calls of the loop *)

Lemma loop_log_embed_calls items :
  ∀ (writes : list (string * gmap string (value vector dict))),
    length writes = length items →
    embed_calls (loop_log items writes) = items.
Proof.
  induction items as [|p items IH]; intros [|wr writes] Hlen; try done.
  simpl in *. f_equal. apply IH. lia.
Qed.

Lemma loop_log_staged items :
  ∀ (writes : list (string * gmap string (value vector dict))),
    length writes = length items →
    staged (loop_log items writes) = writes.
Proof.
  induction items as [|p items IH]; intros [|wr writes] Hlen; try done.
  simpl in *. destruct wr as [doc data]. f_equal. apply IH. lia.
Qed.

Lemma loop_log_commits items :
  ∀ (writes : list (string * gmap string (value vector dict))),
    commits (loop_log items writes) = [].
Proof.
  induction items as [|p items IH]; intros [|wr writes]; try done. simpl. apply IH.
Qed.

(** ** The record of an image *)

Lemma record_data_metadata cfg (image_embs : vector) (metadata : option dict) :
  record_data cfg image_embs metadata !! metadata_field cfg
  = Some (from_option VDict VNone metadata).
Proof. unfold record_data. apply lookup_insert_eq. Qed.

Lemma record_data_embedding cfg (image_embs : vector) (metadata : option dict) :
  embedding_field cfg ≠ metadata_field cfg →
  record_data cfg image_embs metadata !! embedding_field cfg
  = Some (VVector image_embs).
Proof.
  intros H. unfold record_data.
  rewrite lookup_insert_ne by done. apply lookup_insert_eq.
Qed.

Lemma record_data_content cfg (image_embs : vector) (metadata : option dict) :
  content_field cfg ≠ embedding_field cfg →
  content_field cfg ≠ metadata_field cfg →
  record_data cfg image_embs metadata !! content_field cfg = Some (VStr "").
Proof.
  intros H1 H2. unfold record_data.
  rewrite !lookup_insert_ne by done. apply lookup_insert_eq.
Qed.

Lemma record_data_other cfg (image_embs : vector) (metadata : option dict) f :
  f ≠ content_field cfg → f ≠ embedding_field cfg → f ≠ metadata_field cfg →
  record_data cfg image_embs metadata !! f = None.
Proof.
  intros H1 H2 H3. unfold record_data. by rewrite !lookup_insert_ne.
Qed.

(** ** Committing merge-writes *)

Lemma merge_write_snoc (st : gmap string (gmap string (value vector dict)))
    writes wr :
  foldl merge_write st (writes ++ [wr])
  = merge_write (foldl merge_write st writes) wr.
Proof. by rewrite foldl_app. Qed.

Lemma lookup_merge_write (st : gmap string (gmap string (value vector dict)))
    wr doc_id :
  merge_write st wr !! doc_id
  = if decide (wr.1 = doc_id) then Some (wr.2 ∪ default ∅ (st !! doc_id))
    else st !! doc_id.
Proof.
  unfold merge_write. rewrite lookup_insert.
  destruct (decide (wr.1 = doc_id)) as [<-|]; done.
Qed.

(** A field that no write of the batch sets keeps its value. *)
Lemma commit_keeps_field (writes : list (string * gmap string (value vector dict)))
    st doc_id old f :
  st !! doc_id = Some old →
  (∀ wr, wr ∈ writes → wr.2 !! f = None) →
  ∃ new, foldl merge_write st writes !! doc_id = Some new ∧ new !! f = old !! f.
Proof.
  induction writes as [|wr writes IH] using rev_ind; intros Hold Hf.
  - exists old. by split.
  - destruct IH as (mid & Hmid & Hmf); [done | |].
    { intros wr' Hin. apply Hf, elem_of_app. by left. }
    rewrite merge_write_snoc, lookup_merge_write.
    destruct (decide (wr.1 = doc_id)) as [Heq|Hne]; [|by exists mid].
    exists (wr.2 ∪ mid). rewrite Hmid. split; [done|].
    rewrite lookup_union_r; [done|].
    apply Hf, elem_of_app. right. by apply list_elem_of_singleton.
Qed.

(** Every document written to holds what the last write to it has set. *)
Lemma commit_holds_write (writes : list (string * gmap string (value vector dict)))
    st doc_id :
  doc_id ∈ writes.*1 →
  ∃ data new,
    (doc_id, data) ∈ writes ∧
    foldl merge_write st writes !! doc_id = Some new ∧
    data ⊆ new.
Proof.
  induction writes as [|wr writes IH] using rev_ind; intros Hin.
  - by apply elem_of_nil in Hin.
  - rewrite merge_write_snoc, lookup_merge_write.
    destruct (decide (wr.1 = doc_id)) as [Heq|Hne].
    + exists wr.2, (wr.2 ∪ default ∅ (foldl merge_write st writes !! doc_id)).
      split; [|split; [done | apply map_union_subseteq_l]].
      apply elem_of_app. right. apply list_elem_of_singleton.
      destruct wr; simpl in *; by subst.
    + rewrite fmap_app in Hin. apply elem_of_app in Hin as [Hin|Hin].
      * destruct (IH Hin) as (data & new & H1 & H2 & H3).
        exists data, new. split; [apply elem_of_app; by left | done].
      * simpl in Hin. apply list_elem_of_singleton in Hin. by destruct Hne.
Qed.

(** ** The whole method *)

Lemma second_pass_length it : length (second_pass it) ≤ images_len it.
Proof. destruct it; unfold second_pass, images_len; simpl; lia. Qed.

Lemma add_images_no_images cfg it metadatas ids kwargs (w : world) :
  images_len it = 0 →
  add_images cfg it metadatas ids kwargs w
  = Outcome (inl (ValueError msg_no_images)) w [].
Proof.
  unfold images_len, add_images. destruct (iterate it) as [listed it'].
  simpl. by intros ->.
Qed.

Lemma add_images_bad_metadatas cfg it metadatas ids kwargs (w : world) :
  images_len it ≠ 0 →
  len_match metadatas (images_len it) = false →
  add_images cfg it metadatas ids kwargs w
  = Outcome (inl (ValueError msg_metadatas)) w [].
Proof.
  unfold images_len, add_images. destruct (iterate it) as [listed it'].
  simpl. intros Hn ->. by destruct (length listed).
Qed.

Lemma add_images_bad_ids cfg it metadatas ids kwargs (w : world) :
  images_len it ≠ 0 →
  len_match metadatas (images_len it) = true →
  len_match ids (images_len it) = false →
  add_images cfg it metadatas ids kwargs w
  = Outcome (inl (ValueError msg_ids)) w [].
Proof.
  unfold images_len, add_images. destruct (iterate it) as [listed it'].
  simpl. intros Hn -> ->. by destruct (length listed).
Qed.

(** Once the arguments are accepted, the loop walks what a second traversal
    of [image_paths] yields. *)
Lemma add_images_accepted cfg it metadatas ids kwargs (w : world) :
  images_len it ≠ 0 →
  len_match metadatas (images_len it) = true →
  len_match ids (images_len it) = true →
  let items := second_pass it in
  let writes := loop_writes cfg metadatas ids 0 (generated w) items in
  add_images cfg it metadatas ids kwargs w
  = Outcome (inr writes.*1)
      {| store := foldl merge_write (store w) writes;
         generated := if truthy ids then generated w
                      else generated w + length items |}
      (EvBatch :: loop_log items writes ++ [EvCommit writes]).
Proof.
  intros Hn Hm Hi items writes.
  pose proof (second_pass_length it) as Hlen.
  assert (add_images cfg it metadatas ids kwargs w
          = (let* db_batch := client_batch in
             let* r := add_images_loop cfg metadatas ids 0 items [] db_batch in
             batch_commit r.2 ;;; ret r.1) w) as ->.
  { revert Hn Hm Hi. subst items. unfold images_len, second_pass, add_images.
    destruct (iterate it) as [listed it']. simpl.
    intros Hn -> ->. by destruct (length listed). }
  erewrite bind_ok by reflexivity.
  erewrite bind_ok; cycle 1.
  { apply add_images_loop_spec; simpl.
    - eapply covers_le; [exact Hlen | by apply len_match_covers].
    - eapply covers_le; [exact Hlen | by apply len_match_covers]. }
  erewrite bind_ok by reflexivity.
  done.
Qed.

Lemma add_images_seq cfg items metadatas ids kwargs (w : world) :
  items ≠ [] →
  len_match metadatas (length items) = true →
  len_match ids (length items) = true →
  let writes := loop_writes cfg metadatas ids 0 (generated w) items in
  add_images cfg (Seq items) metadatas ids kwargs w
  = Outcome (inr writes.*1)
      {| store := foldl merge_write (store w) writes;
         generated := if truthy ids then generated w
                      else generated w + length items |}
      (EvBatch :: loop_log items writes ++ [EvCommit writes]).
Proof.
  intros Hne Hm Hi. apply (add_images_accepted cfg (Seq items)); [|done..].
  unfold images_len; simpl. by destruct items.
Qed.

(** A one-shot iterator has been used up by [len(list(image_paths))] when
    the loop starts: the loop body never runs. *)
Lemma add_images_iter cfg remaining metadatas ids kwargs (w : world) :
  remaining ≠ [] →
  len_match metadatas (length remaining) = true →
  len_match ids (length remaining) = true →
  add_images cfg (Iter remaining) metadatas ids kwargs w
  = Outcome (inr []) w [EvBatch; EvCommit []].
Proof.
  intros Hne Hm Hi.
  rewrite (add_images_accepted cfg (Iter remaining)); [|try done..].
  - simpl. destruct w. simpl. by destruct (truthy ids); rewrite ?Nat.add_0_r.
  - unfold images_len; simpl. by destruct remaining.
Qed.

Lemma staged_app (l1 l2 : list event) :
  staged (l1 ++ l2) = staged l1 ++ staged l2.
Proof. apply omap_app. Qed.

Lemma embed_calls_app (l1 l2 : list event) :
  embed_calls (l1 ++ l2) = embed_calls l1 ++ embed_calls l2.
Proof. apply omap_app. Qed.

Lemma commits_app (l1 l2 : list event) :
  commits (l1 ++ l2) = commits l1 ++ commits l2.
Proof. apply omap_app. Qed.

(** The calls of an accepted run, read off its log. *)
Lemma accepted_log_staged items
    (writes : list (string * gmap string (value vector dict))) :
  length writes = length items →
  staged (EvBatch :: loop_log items writes ++ [EvCommit writes]) = writes.
Proof.
  intros Hlen.
  change (staged ([EvBatch] ++ loop_log items writes ++ [EvCommit writes]) = writes).
  rewrite !staged_app, loop_log_staged by done. simpl. apply app_nil_r.
Qed.

Lemma accepted_log_embed_calls items
    (writes : list (string * gmap string (value vector dict))) :
  length writes = length items →
  embed_calls (EvBatch :: loop_log items writes ++ [EvCommit writes]) = items.
Proof.
  intros Hlen.
  change (embed_calls ([EvBatch] ++ loop_log items writes ++ [EvCommit writes])
          = items).
  rewrite !embed_calls_app, loop_log_embed_calls by done. simpl. apply app_nil_r.
Qed.

Lemma accepted_log_commits items
    (writes : list (string * gmap string (value vector dict))) :
  commits (EvBatch :: loop_log items writes ++ [EvCommit writes]) = [writes].
Proof.
  change (commits ([EvBatch] ++ loop_log items writes ++ [EvCommit writes])
          = [writes]).
  by rewrite !commits_app, loop_log_commits.
Qed.

(** The four ways a call can go. *)
Lemma add_images_cases cfg it metadatas ids kwargs (w : world) :
  let n := images_len it in
  let o := add_images cfg it metadatas ids kwargs w in
  let items := second_pass it in
  let writes := loop_writes cfg metadatas ids 0 (generated w) items in
  (n = 0 ∧ o = Outcome (inl (ValueError msg_no_images)) w [])
  ∨ (n ≠ 0 ∧ len_match metadatas n = false ∧
     o = Outcome (inl (ValueError msg_metadatas)) w [])
  ∨ (n ≠ 0 ∧ len_match metadatas n = true ∧ len_match ids n = false ∧
     o = Outcome (inl (ValueError msg_ids)) w [])
  ∨ (n ≠ 0 ∧ len_match metadatas n = true ∧ len_match ids n = true ∧
     o = Outcome (inr writes.*1)
           {| store := foldl merge_write (store w) writes;
              generated := if truthy ids then generated w
                           else generated w + length items |}
           (EvBatch :: loop_log items writes ++ [EvCommit writes])).
Proof.
  intros n o items writes. subst o.
  destruct (decide (n = 0)) as [H0|H0].
  { left. split; [done|]. by apply add_images_no_images. }
  destruct (len_match metadatas n) eqn:Hm; cycle 1.
  { right; left. repeat split; [done|]. by apply add_images_bad_metadatas. }
  destruct (len_match ids n) eqn:Hi; cycle 1.
  { right; right; left. repeat split; [done|]. by apply add_images_bad_ids. }
  right; right; right. repeat split; [done|]. by apply add_images_accepted.
Qed.

(** ** Rejected calls *)

(** Claim C2.  [add_images] raises exactly when (a) no image is supplied,
    or (b) the metadata list is non-empty and its length differs from the
    image count, or (c) the id list is non-empty and its length differs
    from the image count.  What is raised then is a [ValueError] with one
    of the three messages of the method; it is raised before any call to
    the embedding service and before any write is staged (the log of the
    call is empty), and the collection and its id allocator are left as
    they were: no document is created. *)
Theorem add_images_rejects_iff cfg it metadatas ids kwargs (w : world) :
  let n := images_len it in
  let o := add_images cfg it metadatas ids kwargs w in
  ((∃ e, res o = inl e) ↔
     n = 0
     ∨ (opt_len metadatas ≠ 0 ∧ opt_len metadatas ≠ n)
     ∨ (opt_len ids ≠ 0 ∧ opt_len ids ≠ n))
  ∧ (∀ e, res o = inl e →
       (e = ValueError msg_no_images ∨ e = ValueError msg_metadatas
        ∨ e = ValueError msg_ids)
       ∧ log o = [] ∧ final o = w).
Proof.
  intros n o. subst n o.
  destruct (add_images_cases cfg it metadatas ids kwargs w)
    as [(H0 & E) | [(H0 & Hm & E) | [(H0 & Hm & Hi & E) | (H0 & Hm & Hi & E)]]];
    rewrite E; simpl.
  - split; [split; [by left | by eexists]|].
    intros e [= <-]. repeat split. by left.
  - apply len_match_false in Hm.
    split; [split; [by right; left | by eexists]|].
    intros e [= <-]. repeat split. by right; left.
  - apply len_match_false in Hi.
    split; [split; [by right; right | by eexists]|].
    intros e [= <-]. repeat split. by right; right.
  - apply len_match_true in Hm, Hi. split; [|done].
    split; [by intros [e ?]|]. intros [?|[[??]|[??]]]; lia.
Qed.

(** Claim C9.  The checks have a fixed precedence.  With no image, the
    error is the one for missing images, whatever the metadata and id
    lists are.  With at least one image and a metadata list of a wrong
    length, the error is the one for the metadata list, whatever the id
    list is.  The error for the id list is raised only when neither of the
    other two applies. *)
Theorem rejection_precedence cfg it metadatas ids kwargs (w : world) :
  let n := images_len it in
  let o := add_images cfg it metadatas ids kwargs w in
  (n = 0 → res o = inl (ValueError msg_no_images))
  ∧ (n ≠ 0 → opt_len metadatas ≠ 0 → opt_len metadatas ≠ n →
     res o = inl (ValueError msg_metadatas))
  ∧ (res o = inl (ValueError msg_ids) →
     n ≠ 0 ∧ (opt_len metadatas = 0 ∨ opt_len metadatas = n)
     ∧ opt_len ids ≠ 0 ∧ opt_len ids ≠ n).
Proof.
  intros n o. subst n o. split; [|split].
  - intros H0. by rewrite add_images_no_images.
  - intros H0 Hm1 Hm2.
    rewrite add_images_bad_metadatas; [done..|]. by apply len_match_false.
  - intros H.
    destruct (add_images_cases cfg it metadatas ids kwargs w)
      as [(H0 & E) | [(H0 & Hm & E) | [(H0 & Hm & Hi & E) | (H0 & Hm & Hi & E)]]];
      rewrite E in H; simpl in H; try done.
    apply len_match_true in Hm. apply len_match_false in Hi as [? ?]. done.
Qed.

(** Claim C10.  The keyword arguments are never read: two calls that agree
    on the image paths, the metadata and the ids, made in the same state,
    have the same outcome (the same result, the same calls, hence the same
    staged writes, and the same final state), whatever their keyword
    arguments are. *)
Theorem kwargs_ignored cfg it metadatas ids
    (kwargs1 kwargs2 : list (string * any)) (w : world) :
  add_images cfg it metadatas ids kwargs1 w
  = add_images cfg it metadatas ids kwargs2 w.
Proof. reflexivity. Qed.

(** ** Accepted calls on a list of image paths *)

(** Claim C4.  For a non-empty list of image paths, with neither metadata
    nor ids supplied, [add_images] returns as many ids as there are image
    paths, and every id returned names a document written by the one batch
    the call commits: the batch holds a write for that id and, after the
    commit, the collection holds a document under that id which contains
    all that this write has set. *)
Theorem add_images_list_returns_written_ids cfg items kwargs (w : world) :
  items ≠ [] →
  let o := add_images cfg (Seq items) None None kwargs w in
  ∃ _ids writes,
    res o = inr _ids ∧
    length _ids = length items ∧
    commits (log o) = [writes] ∧
    ∀ doc_id, doc_id ∈ _ids →
      ∃ data new,
        (doc_id, data) ∈ writes ∧
        store (final o) !! doc_id = Some new ∧
        data ⊆ new.
Proof.
  intros Hne o. subst o. rewrite add_images_seq by done.
  set (writes := loop_writes cfg None None 0 (generated w) items).
  exists writes.*1, writes. simpl. repeat split.
  - subst writes. by rewrite length_fmap, loop_writes_length.
  - apply accepted_log_commits.
  - intros doc_id Hin. by apply commit_holds_write.
Qed.

(** An accepted call on a list asks the embedding service for each image
    once, in the order of the list, stages one write per image, and then
    commits these writes, once; it returns the ids of the writes. *)
Lemma add_images_list_calls cfg items metadatas ids kwargs (w : world) :
  items ≠ [] →
  len_match metadatas (length items) = true →
  len_match ids (length items) = true →
  let o := add_images cfg (Seq items) metadatas ids kwargs w in
  ∃ writes,
    res o = inr writes.*1 ∧
    length writes = length items ∧
    embed_calls (log o) = items ∧
    staged (log o) = writes ∧
    commits (log o) = [writes] ∧
    ∃ before, log o = before ++ [EvCommit writes] ∧
              staged before = writes ∧ commits before = [].
Proof.
  intros Hne Hm Hi o. subst o. rewrite add_images_seq by done.
  set (writes := loop_writes cfg metadatas ids 0 (generated w) items).
  assert (length writes = length items) as Hlen by apply loop_writes_length.
  exists writes. cbn [res final log]. repeat split; [done|..].
  - by apply accepted_log_embed_calls.
  - by apply accepted_log_staged.
  - apply accepted_log_commits.
  - exists (EvBatch :: loop_log items writes). repeat split.
    + change (staged ([EvBatch] ++ loop_log items writes) = writes).
      by rewrite staged_app, loop_log_staged.
    + change (commits ([EvBatch] ++ loop_log items writes) = []).
      by rewrite commits_app, loop_log_commits.
Qed.


(** With a list of image paths and no ids, when the ids the collection
    generates are new and the three field names differ, the call creates
    one document per image: the ids returned are pairwise distinct, none of
    them named a document before, and each names a document afterwards,
    with an empty content and the embedding of one of the images. *)
Lemma add_images_list_new_documents cfg items metadatas ids kwargs (w : world) :
  items ≠ [] →
  truthy ids = false →
  len_match metadatas (length items) = true →
  distinct_fields cfg →
  (∀ j k, j < length items → k < length items →
          auto_id (generated w + j) = auto_id (generated w + k) → j = k) →
  (∀ k, k < length items → store w !! auto_id (generated w + k) = None) →
  let o := add_images cfg (Seq items) metadatas ids kwargs w in
  ∃ _ids,
    res o = inr _ids ∧ length _ids = length items ∧ NoDup _ids ∧
    ∀ doc_id, doc_id ∈ _ids →
      store w !! doc_id = None ∧
      ∃ new image_path,
        image_path ∈ items ∧
        store (final o) !! doc_id = Some new ∧
        new !! content_field cfg = Some (VStr "") ∧
        new !! embedding_field cfg = Some (VVector (embedding_service image_path)).
Proof.
  intros Hne Hf Hm (Hce & Hcm & Hem) Hinj Hfresh o. subst o.
  assert (len_match ids (length items) = true) as Hi.
  { apply len_match_true. left.
    destruct (decide (opt_len ids = 0)); [done|].
    assert (truthy ids = true) by (by apply truthy_opt_len). congruence. }
  rewrite add_images_seq by done. cbn [res final log store].
  set (writes := loop_writes cfg metadatas ids 0 (generated w) items).
  assert (writes.*1 = (λ k, auto_id (generated w + k)) <$> seq 0 (length items))
    as Hids by (by apply loop_writes_auto_ids).
  exists writes.*1. split; [done|]. split; [|split].
  - subst writes. by rewrite length_fmap, loop_writes_length.
  - rewrite Hids. apply NoDup_fmap_2_strong; [|apply NoDup_seq].
    intros j k Hj%elem_of_seq Hk%elem_of_seq. apply Hinj; lia.
  - intros doc_id Hdoc. split.
    { rewrite Hids in Hdoc.
      apply list_elem_of_fmap in Hdoc as (k & -> & Hk%elem_of_seq).
      apply Hfresh. lia. }
    destruct (commit_holds_write writes (store w) doc_id Hdoc)
      as (data & new & Hin & Hnew & Hsub).
    apply loop_writes_elem in Hin as (k & image_path & Hk & Hd).
    simpl in Hd. subst data.
    exists new, image_path. repeat split; [|done|..].
    + apply list_elem_of_lookup. by exists k.
    + eapply lookup_weaken; [|exact Hsub]. by apply record_data_content.
    + eapply lookup_weaken; [|exact Hsub]. by apply record_data_embedding.
Qed.

(** ** The fields of a staged record *)

(** Claim C7, as amended.  When the name of the content field differs
    from the names of the embedding field and of the metadata field, every
    record staged by [add_images] has the empty string as the value of its
    content field, whatever the image paths, the metadata and the ids
    are. *)
Theorem staged_content_is_empty cfg it metadatas ids kwargs (w : world) :
  content_field cfg ≠ embedding_field cfg →
  content_field cfg ≠ metadata_field cfg →
  let o := add_images cfg it metadatas ids kwargs w in
  ∀ doc_id data, (doc_id, data) ∈ staged (log o) →
    data !! content_field cfg = Some (VStr "").
Proof.
  intros Hce Hcm o doc_id data. subst o.
  destruct (add_images_cases cfg it metadatas ids kwargs w)
    as [(H0 & E) | [(H0 & Hm & E) | [(H0 & Hm & Hi & E) | (H0 & Hm & Hi & E)]]];
    rewrite E; cbn [res final log store]; try by intros ?%elem_of_nil.
  rewrite accepted_log_staged by apply loop_writes_length.
  intros (k & image_path & _ & Hd)%loop_writes_elem. simpl in Hd. subst data.
  by apply record_data_content.
Qed.

(** Claim C3, as amended.  When no metadata list is supplied (or an empty
    one), every staged record sets the metadata field, to [None]; after the
    commit the document under the id of a staged record has [None] as its
    metadata field, whatever it held before.  The merge keeps, in every
    document that was in the collection, each field other than the three
    fields a record sets. *)
Theorem unset_metadata_is_written_as_none cfg it metadatas ids kwargs (w : world) :
  truthy metadatas = false →
  let o := add_images cfg it metadatas ids kwargs w in
  (∀ doc_id data, (doc_id, data) ∈ staged (log o) →
     data !! metadata_field cfg = Some VNone ∧
     ∃ new, store (final o) !! doc_id = Some new ∧
            new !! metadata_field cfg = Some VNone)
  ∧ (∀ doc_id old f,
       store w !! doc_id = Some old →
       f ≠ content_field cfg → f ≠ embedding_field cfg →
       f ≠ metadata_field cfg →
       ∃ new, store (final o) !! doc_id = Some new ∧ new !! f = old !! f).
Proof.
  intros Hf o. subst o.
  destruct (add_images_cases cfg it metadatas ids kwargs w)
    as [(H0 & E) | [(H0 & Hm & E) | [(H0 & Hm & Hi & E) | (H0 & Hm & Hi & E)]]];
    rewrite E; cbn [res final log store];
    try (split; [by intros ?? ?%elem_of_nil | intros ??? Hold; by exists old]).
  rewrite accepted_log_staged by apply loop_writes_length.
  set (writes := loop_writes cfg metadatas ids 0 (generated w) (second_pass it)).
  assert (∀ wr, wr ∈ writes → wr.2 !! metadata_field cfg = Some VNone) as Hnone.
  { intros wr (k & image_path & _ & ->)%loop_writes_elem.
    by rewrite record_data_metadata, sel_falsy. }
  split.
  - intros doc_id data Hin. split; [by apply (Hnone (doc_id, data))|].
    destruct (commit_holds_write writes (store w) doc_id)
      as (data' & new & Hin' & Hnew & Hsub).
    { apply list_elem_of_fmap. by exists (doc_id, data). }
    exists new. split; [done|].
    eapply lookup_weaken; [|exact Hsub]. by apply (Hnone (doc_id, data')).
  - intros doc_id old f Hold Hc He Hmf.
    apply commit_keeps_field; [done|].
    intros wr (k & image_path & _ & ->)%loop_writes_elem.
    by apply record_data_other.
Qed.

(** ** Accepted calls on a one-shot iterator

    [image_paths] may be any iterable.  Given an iterator, the method uses
    it up when it counts the images, and the loop that follows finds
    nothing left to walk. *)

(** Claim C1, on an iterator.  For the iterator over the single image path
    ["a.png"], the image count is 1 and the call is accepted, but no write
    is staged, the batch committed is empty, the list returned is empty
    rather than of length 1, and the collection is unchanged. *)
Theorem iterator_input_stages_nothing cfg kwargs (w : world) :
  let o := add_images cfg (Iter ["a.png"]) None None kwargs w in
  images_len (Iter ["a.png"]) = 1 ∧
  res o = inr [] ∧
  staged (log o) = [] ∧
  commits (log o) = [[]] ∧
  final o = w.
Proof. intros o. subst o. by rewrite add_images_iter. Qed.

(** Claim C5, on an iterator.  For the iterator over two image paths, with
    the two ids ["x"] and ["y"] and two metadata mappings, the call is
    accepted and returns the empty list, not the two ids, and it stages no
    record, so none carries the metadata supplied. *)
Theorem iterator_input_drops_supplied_ids cfg (m1 m2 : dict) kwargs (w : world) :
  let o :=
    add_images cfg (Iter ["a.png"; "b.png"]) (Some [m1; m2]) (Some ["x"; "y"])
      kwargs w in
  res o = inr [] ∧
  res o ≠ inr ["x"; "y"] ∧
  staged (log o) = [].
Proof. intros o. subst o. by rewrite add_images_iter. Qed.

(** Claim C6, on an iterator.  For the iterator over three image paths,
    with no metadata and no ids, the call is accepted, returns no id at all
    and leaves the collection as it was: no document is created. *)
Theorem iterator_input_creates_no_document cfg kwargs (w : world) :
  let o :=
    add_images cfg (Iter ["a.png"; "b.png"; "c.png"]) None None kwargs w in
  images_len (Iter ["a.png"; "b.png"; "c.png"]) = 3 ∧
  res o = inr [] ∧
  store (final o) = store w ∧
  generated (final o) = generated w.
Proof. intros o. subst o. by rewrite add_images_iter. Qed.

(** Claim C8, on an iterator.  For the iterator over two image paths the
    call succeeds, and it commits one batch, but it makes no call to the
    embedding service, where one per image is expected. *)
Theorem iterator_input_skips_embedding cfg kwargs (w : world) :
  let o := add_images cfg (Iter ["a.png"; "b.png"]) None None kwargs w in
  images_len (Iter ["a.png"; "b.png"]) = 2 ∧
  res o = inr [] ∧
  embed_calls (log o) = [] ∧
  commits (log o) = [[]].
Proof. intros o. subst o. by rewrite add_images_iter. Qed.

End Properties.

(** * The properties on the concrete store *)

(** Claim C2 on an instance: one image, two ids.  The call is rejected
    with the message for the ids, nothing has been called and the
    collection is as it was. *)
Lemma add_images_rejects_iff_witness :
  let o :=
    demo_add_images default_config (Seq ["a.png"]) None (Some ["x"; "y"]) []
      one_doc_world in
  res o = inl (ValueError msg_ids) ∧ log o = [] ∧ final o = one_doc_world.
Proof.
  intros o.
  destruct (add_images_rejects_iff demo_embedding demo_auto_id default_config
              (Seq ["a.png"]) None (Some ["x"; "y"]) ([] : list (string * demo_any))
              one_doc_world) as [_ Herr].
  destruct (Herr (ValueError msg_ids)) as (_ & Hlog & Hfinal); [reflexivity|].
  split; [reflexivity|]. split; [exact Hlog | exact Hfinal].
Defined.

(** Claim C9 on two instances: no image with lists of a wrong length, and
    one image with a metadata list and an id list both of length two. *)
Lemma rejection_precedence_witness :
  res (demo_add_images default_config (Seq []) (Some [[]]) (Some ["x"]) []
         empty_world)
  = inl (ValueError msg_no_images)
  ∧ res (demo_add_images default_config (Seq ["a.png"]) (Some [[]; []])
           (Some ["x"; "y"]) [] empty_world)
    = inl (ValueError msg_metadatas).
Proof.
  split.
  - destruct (rejection_precedence demo_embedding demo_auto_id default_config
                (Seq []) (Some [[]]) (Some ["x"])
                ([] : list (string * demo_any)) empty_world) as (Hfirst & _).
    apply Hfirst. reflexivity.
  - destruct (rejection_precedence demo_embedding demo_auto_id default_config
                (Seq ["a.png"]) (Some [[]; []]) (Some ["x"; "y"])
                ([] : list (string * demo_any)) empty_world)
      as (_ & Hsecond & _).
    apply Hsecond; vm_compute; lia.
Defined.

(** Claim C4 on an instance: a list of two image paths. *)
Lemma add_images_list_returns_written_ids_witness :
  ["a.png"; "b.png"] ≠ [] ∧
  ∃ _ids,
    res (demo_add_images default_config (Seq ["a.png"; "b.png"]) None None []
           empty_world) = inr _ids ∧
    length _ids = 2.
Proof.
  split; [discriminate|].
  destruct (add_images_list_returns_written_ids demo_embedding demo_auto_id
              default_config ["a.png"; "b.png"] ([] : list (string * demo_any))
              empty_world) as (_ids & writes & Hres & Hlen & _);
    [discriminate|].
  exists _ids. split; [exact Hres | exact Hlen].
Defined.

(** Claim C7, as stated, fails on a store whose content field and metadata
    field share a name: the dict literal then sets that key twice, and the
    record staged holds [None] under it, not the empty string. *)
Lemma shared_name_content_is_not_empty :
  let o :=
    demo_add_images shared_name_config (Seq ["a.png"]) None None []
      empty_world in
  ∃ doc_id data,
    (doc_id, data) ∈ staged (log o) ∧
    data !! content_field shared_name_config = Some VNone ∧
    data !! content_field shared_name_config ≠ Some (VStr "").
Proof.
  intros o.
  exists "auto", (record_data shared_name_config (demo_embedding "a.png") None).
  split; [|split].
  - vm_compute. apply list_elem_of_here.
  - reflexivity.
  - discriminate.
Qed.

(** Claim C7, as amended, on the default store. *)
Lemma staged_content_is_empty_witness :
  content_field default_config ≠ embedding_field default_config ∧
  content_field default_config ≠ metadata_field default_config ∧
  ∀ doc_id data,
    (doc_id, data)
    ∈ staged (log (demo_add_images default_config (Seq ["a.png"; "b.png"])
                     (Some [[("k", "v")]; []]) (Some ["x"; "y"]) []
                     empty_world)) →
    data !! "content" = Some (VStr "").
Proof.
  split; [discriminate|]. split; [discriminate|].
  apply (staged_content_is_empty demo_embedding demo_auto_id default_config
           (Seq ["a.png"; "b.png"]) (Some [[("k", "v")]; []])
           (Some ["x"; "y"]) ([] : list (string * demo_any)) empty_world);
    discriminate.
Defined.

(** Claim C3, as stated, fails: with no metadata supplied, the record
    staged for the existing document ["doc1"] does set the metadata field,
    to [None], and the commit replaces the metadata the document had. *)
Lemma existing_metadata_is_overwritten :
  let o :=
    demo_add_images default_config (Seq ["a.png"]) None (Some ["doc1"]) []
      one_doc_world in
  (∃ data, staged (log o) = [("doc1", data)] ∧
           data !! "metadata" = Some VNone) ∧
  store one_doc_world !! "doc1" ≫= (.!! "metadata")
  = Some (VDict [("source", "upload")]) ∧
  store (final o) !! "doc1" ≫= (.!! "metadata") = Some VNone ∧
  store (final o) !! "doc1" ≫= (.!! "metadata")
  ≠ store one_doc_world !! "doc1" ≫= (.!! "metadata").
Proof.
  intros o. split; [|split; [|split]].
  - eexists. split; reflexivity.
  - reflexivity.
  - reflexivity.
  - vm_compute. discriminate.
Qed.

(** Claim C3, as amended, on the collection holding ["doc1"]: the caption
    of the document is kept, its metadata field is set to [None]. *)
Lemma unset_metadata_is_written_as_none_witness :
  let o :=
    demo_add_images default_config (Seq ["a.png"]) None (Some ["doc1"]) []
      one_doc_world in
  truthy (None : option (list demo_dict)) = false ∧
  ∃ new, store (final o) !! "doc1" = Some new ∧
         new !! "caption" = Some (VStr "a cat").
Proof.
  intros o. split; [reflexivity|].
  destruct (unset_metadata_is_written_as_none demo_embedding demo_auto_id
              default_config (Seq ["a.png"]) None (Some ["doc1"])
              ([] : list (string * demo_any)) one_doc_world)
    as [_ Hkeep]; [reflexivity|].
  apply (Hkeep "doc1" doc1 "caption"); [reflexivity | discriminate..].
Defined.

(** * Further properties of [add_images] *)

Section MoreProperties.

Context {vector dict any : Type}.
Variable embedding_service : string → vector.
Variable auto_id : nat → string.

Local Abbreviation add_images :=
  (@add_images vector dict any embedding_service auto_id).
Local Abbreviation add_images_loop :=
  (@add_images_loop vector dict embedding_service auto_id).
Local Abbreviation loop_writes :=
  (@loop_writes vector dict embedding_service auto_id).
Local Abbreviation world := (world vector dict).
Local Abbreviation event := (event vector dict).

(** ** Computations that agree step by step *)

Lemma bind_ext {A B} (m m' : M A) (f g : A → M B) (w : world) :
  m w = m' w → (∀ a w', f a w' = g a w') → bind m f w = bind m' g w.
Proof.
  intros Hm Hf. unfold bind. rewrite <- Hm.
  destruct (res (m w)) as [e|a]; [done|]. by rewrite Hf.
Qed.

Lemma subscript_if_falsy {A} (xs ys : option (list A)) (i : nat) (w : world) :
  truthy xs = false → truthy ys = false →
  subscript_if xs i w = subscript_if ys i w.
Proof. intros Hx Hy. unfold subscript_if. by rewrite Hx, Hy. Qed.

(** The loop reads its two lists through [subscript_if] only. *)
Lemma add_images_loop_ext cfg metadatas metadatas' ids ids' items :
  (∀ i (w : world), subscript_if metadatas i w = subscript_if metadatas' i w) →
  (∀ i (w : world), subscript_if ids i w = subscript_if ids' i w) →
  ∀ (i : nat) _ids db_batch (w : world),
    add_images_loop cfg metadatas ids i items _ids db_batch w
    = add_images_loop cfg metadatas' ids' i items _ids db_batch w.
Proof.
  intros Hm Hi. induction items as [|image_path items IH];
    intros i _ids db_batch w; [done|].
  rewrite !add_images_loop_cons.
  apply bind_ext; [done|]. intros image_embs w1.
  apply bind_ext; [apply Hi|]. intros doc_id w2.
  apply bind_ext; [done|]. intros doc w3.
  apply bind_ext; [apply Hm|]. intros metadata w4.
  apply bind_ext; [done|]. intros db_batch' w5.
  apply IH.
Qed.

Lemma add_images_ext cfg it metadatas metadatas' ids ids' kwargs (w : world) :
  (∀ n, len_match metadatas n = len_match metadatas' n) →
  (∀ n, len_match ids n = len_match ids' n) →
  (∀ i (w : world), subscript_if metadatas i w = subscript_if metadatas' i w) →
  (∀ i (w : world), subscript_if ids i w = subscript_if ids' i w) →
  add_images cfg it metadatas ids kwargs w
  = add_images cfg it metadatas' ids' kwargs w.
Proof.
  intros Hlm Hli Hm Hi. unfold add_images.
  destruct (iterate it) as [listed it']. rewrite Hlm, Hli.
  destruct (Nat.eqb (length listed) 0); [done|].
  destruct (negb (len_match metadatas' (length listed))); [done|].
  destruct (negb (len_match ids' (length listed))); [done|].
  apply bind_ext; [done|]. intros db_batch w1.
  apply bind_ext; [by apply add_images_loop_ext|]. done.
Qed.

(** An empty metadata list, or an empty id list, is treated as a list that
    was not given: the outcome of the call is the same, for every iterable
    and in every state.  In particular an empty list is never a length
    mismatch. *)
Theorem empty_list_is_like_none cfg it (metadatas : option (list dict))
    (ids : option (list string)) kwargs (w : world) :
  add_images cfg it (Some []) ids kwargs w
  = add_images cfg it None ids kwargs w
  ∧ add_images cfg it metadatas (Some []) kwargs w
    = add_images cfg it metadatas None kwargs w.
Proof.
  split; apply add_images_ext; try done;
    intros i w'; by apply subscript_if_falsy.
Qed.

(** ** What a commit leaves alone *)

Lemma commit_other (writes : list (string * gmap string (value vector dict)))
    st doc_id :
  doc_id ∉ writes.*1 →
  foldl merge_write st writes !! doc_id = st !! doc_id.
Proof.
  induction writes as [|wr writes IH] using rev_ind; intros Hnot; [done|].
  rewrite fmap_app in Hnot. apply not_elem_of_app in Hnot as [Hnot Hwr].
  rewrite merge_write_snoc, lookup_merge_write.
  destruct (decide (wr.1 = doc_id)) as [Heq|Hne]; [|by apply IH].
  destruct Hwr. simpl. rewrite Heq. apply list_elem_of_here.
Qed.

(** The document of an id holds what the last write to that id has set. *)
Lemma commit_holds_last_write
    (writes : list (string * gmap string (value vector dict))) st k doc_id data :
  writes !! k = Some (doc_id, data) →
  (∀ j wr, k < j → writes !! j = Some wr → wr.1 ≠ doc_id) →
  ∃ new, foldl merge_write st writes !! doc_id = Some new ∧ data ⊆ new.
Proof.
  induction writes as [|wr writes IH] using rev_ind; intros Hk Hlast; [done|].
  rewrite merge_write_snoc, lookup_merge_write.
  destruct (decide (k < length writes)) as [Hlt|Hge].
  - rewrite lookup_app_l in Hk by done.
    destruct (decide (wr.1 = doc_id)) as [Heq|Hne].
    + destruct (Hlast (length writes) wr Hlt); [|done].
      by rewrite lookup_app_r, Nat.sub_diag.
    + apply IH; [done|]. intros j wr' Hj Hwr'. apply (Hlast j wr' Hj).
      rewrite lookup_app_l; [done|]. by apply lookup_lt_Some in Hwr'.
  - assert (k = length writes) as ->.
    { apply lookup_lt_Some in Hk. rewrite length_app in Hk. simpl in Hk. lia. }
    rewrite lookup_app_r, Nat.sub_diag in Hk by done. simpl in Hk.
    injection Hk as ->. simpl. rewrite decide_True by done.
    eexists. split; [done|]. apply map_union_subseteq_l.
Qed.

(** A call changes no document but those whose ids it returns: a document
    under any other id is, after the call, what it was before (and an id
    that named no document still names none). *)
Theorem other_documents_untouched cfg it metadatas ids kwargs (w : world)
    _ids doc_id :
  let o := add_images cfg it metadatas ids kwargs w in
  res o = inr _ids →
  doc_id ∉ _ids →
  store (final o) !! doc_id = store w !! doc_id.
Proof.
  intros o. subst o.
  destruct (add_images_cases embedding_service auto_id cfg it metadatas ids
              kwargs w)
    as [(H0 & E) | [(H0 & Hm & E) | [(H0 & Hm & Hi & E) | (H0 & Hm & Hi & E)]]];
    rewrite E; cbn [res final log store]; try done.
  intros [= <-] Hnot. by apply commit_other.
Qed.

(** Whatever the arguments are, a call removes no document, and it keeps,
    in every document of the collection, the value of each field other than
    the content, embedding and metadata fields. *)
Theorem other_fields_preserved cfg it metadatas ids kwargs (w : world)
    doc_id old f :
  let o := add_images cfg it metadatas ids kwargs w in
  store w !! doc_id = Some old →
  f ≠ content_field cfg → f ≠ embedding_field cfg → f ≠ metadata_field cfg →
  ∃ new, store (final o) !! doc_id = Some new ∧ new !! f = old !! f.
Proof.
  intros o Hold Hc He Hmf. subst o.
  destruct (add_images_cases embedding_service auto_id cfg it metadatas ids
              kwargs w)
    as [(H0 & E) | [(H0 & Hm & E) | [(H0 & Hm & Hi & E) | (H0 & Hm & Hi & E)]]];
    rewrite E; cbn [res final log store]; try by exists old.
  apply commit_keeps_field; [done|].
  intros wr Hwr.
  apply (loop_writes_elem embedding_service auto_id) in Hwr
    as (k & image_path & _ & ->).
  by apply record_data_other.
Qed.

(** ** What a successful call has staged, committed and returned *)

(** For every iterable: when a call returns, the ids it returns are the ids
    of the writes it staged, in staging order; it has asked for as many
    embeddings as it staged writes; it has committed exactly one batch,
    holding exactly the staged writes; and the commit is its last call. *)
Theorem returned_ids_are_the_staged_ids cfg it metadatas ids kwargs (w : world)
    _ids :
  let o := add_images cfg it metadatas ids kwargs w in
  res o = inr _ids →
  _ids = (staged (log o)).*1 ∧
  length (embed_calls (log o)) = length (staged (log o)) ∧
  commits (log o) = [staged (log o)] ∧
  last (log o) = Some (EvCommit (staged (log o))).
Proof.
  intros o. subst o.
  destruct (add_images_cases embedding_service auto_id cfg it metadatas ids
              kwargs w)
    as [(H0 & E) | [(H0 & Hm & E) | [(H0 & Hm & Hi & E) | (H0 & Hm & Hi & E)]]];
    rewrite E; cbn [res final log store]; try done.
  intros [= <-].
  set (items := second_pass it).
  set (writes := loop_writes cfg metadatas ids 0 (generated w) items).
  assert (length writes = length items) as Hlen by apply loop_writes_length.
  rewrite accepted_log_staged, accepted_log_embed_calls, accepted_log_commits
    by done.
  repeat split; [done|].
  change (last ((EvBatch :: loop_log items writes) ++ [EvCommit writes])
          = Some (EvCommit writes)).
  apply last_snoc.
Qed.


(** For a list of image paths with ids supplied, one per image: when the
    same id is supplied at several positions, the document of that id ends
    up with the embedding of the image at the last of these positions; its
    content is the empty string, whatever the document held before. *)
Theorem last_image_of_an_id_wins cfg items metadatas (l : list string) kwargs
    (w : world) k image_path doc_id :
  let o := add_images cfg (Seq items) metadatas (Some l) kwargs w in
  distinct_fields cfg →
  length l = length items →
  len_match metadatas (length items) = true →
  items !! k = Some image_path →
  l !! k = Some doc_id →
  (∀ j, k < j → l !! j ≠ Some doc_id) →
  ∃ new,
    store (final o) !! doc_id = Some new ∧
    new !! content_field cfg = Some (VStr "") ∧
    new !! embedding_field cfg = Some (VVector (embedding_service image_path)).
Proof.
  intros o (Hce & Hcm & Hem) Hl Hm Hitem Hid Hlast. subst o.
  assert (items ≠ []) as Hne by (by destruct items).
  assert (len_match (Some l) (length items) = true) as Hi.
  { apply len_match_true. by right. }
  rewrite (add_images_seq embedding_service auto_id) by done.
  cbn [res final log store].
  set (writes := loop_writes cfg metadatas (Some l) 0 (generated w) items).
  assert (writes.*1 = l) as Hids by (by apply loop_writes_ids).
  set (data := record_data cfg (embedding_service image_path) (sel metadatas k)).
  destruct (commit_holds_last_write writes (store w) k doc_id data)
    as (new & Hnew & Hsub).
  - subst writes. rewrite loop_writes_lookup, Hitem. simpl.
    by rewrite sel_some, Hid.
  - intros j wr Hj Hwr Heq. apply (Hlast j Hj).
    rewrite <- Hids, list_lookup_fmap, Hwr. simpl. by rewrite Heq.
  - exists new. split; [done|]. split.
    + eapply lookup_weaken; [|exact Hsub]. by apply record_data_content.
    + eapply lookup_weaken; [|exact Hsub]. by apply record_data_embedding.
Qed.

(** For a list of image paths and no ids (none, or an empty list), the ids
    returned are the ids the collection generates next, in the order it
    generates them, one per image and no more. *)
Theorem generated_ids_in_order cfg items metadatas ids kwargs (w : world) :
  let o := add_images cfg (Seq items) metadatas ids kwargs w in
  items ≠ [] →
  truthy ids = false →
  len_match metadatas (length items) = true →
  res o = inr ((λ k, auto_id (generated w + k)) <$> seq 0 (length items)) ∧
  generated (final o) = generated w + length items.
Proof.
  intros o Hne Hf Hm. subst o.
  assert (len_match ids (length items) = true) as Hi.
  { apply len_match_true. left.
    destruct (decide (opt_len ids = 0)); [done|].
    assert (truthy ids = true) by (by apply truthy_opt_len). congruence. }
  rewrite (add_images_seq embedding_service auto_id) by done.
  cbn [res final log generated].
  rewrite (loop_writes_auto_ids embedding_service auto_id) by done.
  by rewrite Hf.
Qed.

(** With ids supplied, no id is generated: the collection will generate,
    after the call, the ids it would have generated before it. *)
Theorem supplied_ids_generate_nothing cfg it metadatas ids kwargs (w : world) :
  let o := add_images cfg it metadatas ids kwargs w in
  truthy ids = true →
  generated (final o) = generated w.
Proof.
  intros o Ht. subst o.
  destruct (add_images_cases embedding_service auto_id cfg it metadatas ids
              kwargs w)
    as [(H0 & E) | [(H0 & Hm & E) | [(H0 & Hm & Hi & E) | (H0 & Hm & Hi & E)]]];
    rewrite E; cbn [res final log generated]; try done.
  by rewrite Ht.
Qed.

(** ** One-shot iterators, in general *)

(** Whenever a one-shot iterator passes the argument checks, the call does
    nothing and says so nowhere: it returns the empty list, asks for no
    embedding, stages no write, commits an empty batch and leaves the
    collection as it was. *)
Theorem one_shot_iterator_is_a_silent_noop cfg remaining metadatas ids kwargs
    (w : world) :
  let o := add_images cfg (Iter remaining) metadatas ids kwargs w in
  remaining ≠ [] →
  opt_len metadatas = 0 ∨ opt_len metadatas = length remaining →
  opt_len ids = 0 ∨ opt_len ids = length remaining →
  res o = inr [] ∧
  embed_calls (log o) = [] ∧
  staged (log o) = [] ∧
  commits (log o) = [[]] ∧
  final o = w.
Proof.
  intros o Hne Hm%len_match_true Hi%len_match_true. subst o.
  by rewrite (add_images_iter embedding_service auto_id).
Qed.

End MoreProperties.

(** * The further properties on the concrete store *)

Lemma add_images_list_calls_witness :
  let o :=
    demo_add_images default_config (Seq ["a.png"; "bb.png"]) None None []
      empty_world in
  embed_calls (log o) = ["a.png"; "bb.png"] ∧
  length (staged (log o)) = 2 ∧
  length (commits (log o)) = 1.
Proof.
  intros o.
  destruct (add_images_list_calls demo_embedding demo_auto_id default_config
              ["a.png"; "bb.png"] None None ([] : list (string * demo_any))
              empty_world)
    as (writes & _ & Hlen & Hcalls & Hstaged & Hcommits & _);
    [discriminate | reflexivity | reflexivity |].
  split; [exact Hcalls|]. split.
  - subst o. unfold demo_add_images. rewrite Hstaged. exact Hlen.
  - subst o. unfold demo_add_images. rewrite Hcommits. reflexivity.
Defined.


Lemma add_images_list_new_documents_witness :
  let o :=
    demo_add_images default_config (Seq ["a.png"; "bb.png"]) None None []
      empty_world in
  ∃ _ids, res o = inr _ids ∧ length _ids = 2 ∧ NoDup _ids.
Proof.
  intros o.
  destruct (add_images_list_new_documents demo_embedding demo_auto_id
              default_config ["a.png"; "bb.png"] None None
              ([] : list (string * demo_any)) empty_world)
    as (_ids & Hres & Hlen & Hnodup & _).
  - discriminate.
  - reflexivity.
  - reflexivity.
  - repeat split; discriminate.
  - intros [|[|j]] [|[|k]] Hj Hk; simpl in *; try lia; try discriminate;
      reflexivity.
  - intros k _. reflexivity.
  - exists _ids. split; [exact Hres|]. split; [exact Hlen | exact Hnodup].
Defined.

Lemma other_documents_untouched_witness :
  store (final (demo_add_images default_config (Seq ["a.png"]) None None []
                  one_doc_world)) !! "doc1"
  = Some doc1.
Proof.
  apply (other_documents_untouched demo_embedding demo_auto_id default_config
           (Seq ["a.png"]) None None ([] : list (string * demo_any))
           one_doc_world ["auto"] "doc1").
  - reflexivity.
  - intros Hin. apply list_elem_of_singleton in Hin. discriminate.
Defined.

Lemma other_fields_preserved_witness :
  ∃ new,
    store (final (demo_add_images default_config (Seq ["a.png"])
                    (Some [[("source", "camera")]]) (Some ["doc1"]) []
                    one_doc_world)) !! "doc1" = Some new ∧
    new !! "caption" = Some (VStr "a cat").
Proof.
  apply (other_fields_preserved demo_embedding demo_auto_id default_config
           (Seq ["a.png"]) (Some [[("source", "camera")]]) (Some ["doc1"])
           ([] : list (string * demo_any)) one_doc_world "doc1" doc1 "caption");
    [reflexivity | discriminate..].
Defined.

Lemma returned_ids_are_the_staged_ids_witness :
  let o :=
    demo_add_images default_config (Seq ["a.png"; "bb.png"]) None
      (Some ["x"; "y"]) [] empty_world in
  ["x"; "y"] = (staged (log o)).*1 ∧
  commits (log o) = [staged (log o)].
Proof.
  intros o.
  destruct (returned_ids_are_the_staged_ids demo_embedding demo_auto_id
              default_config (Seq ["a.png"; "bb.png"]) None (Some ["x"; "y"])
              ([] : list (string * demo_any)) empty_world ["x"; "y"])
    as (Hids & _ & Hcommits & _); [reflexivity|].
  split; [exact Hids | exact Hcommits].
Defined.


Lemma last_image_of_an_id_wins_witness :
  ∃ new,
    store (final (demo_add_images default_config (Seq ["a.png"; "bb.png"])
                    None (Some ["doc1"; "doc1"]) [] one_doc_world)) !! "doc1"
    = Some new ∧
    new !! "content" = Some (VStr "") ∧
    new !! "embedding" = Some (VVector (demo_embedding "bb.png")).
Proof.
  apply (last_image_of_an_id_wins demo_embedding demo_auto_id default_config
           ["a.png"; "bb.png"] None ["doc1"; "doc1"]
           ([] : list (string * demo_any)) one_doc_world 1 "bb.png" "doc1").
  - repeat split; discriminate.
  - reflexivity.
  - reflexivity.
  - reflexivity.
  - reflexivity.
  - intros [|[|j]] Hj; simpl; [lia | lia | discriminate].
Defined.

Lemma generated_ids_in_order_witness :
  let o :=
    demo_add_images default_config (Seq ["a.png"; "bb.png"]) None (Some [])
      [] one_doc_world in
  res o = inr ["auto"; "auto'"] ∧ generated (final o) = 2.
Proof.
  intros o.
  apply (generated_ids_in_order demo_embedding demo_auto_id default_config
           ["a.png"; "bb.png"] None (Some []) ([] : list (string * demo_any))
           one_doc_world);
    [discriminate | reflexivity | reflexivity].
Defined.

Lemma supplied_ids_generate_nothing_witness :
  generated (final (demo_add_images default_config (Seq ["a.png"]) None
                      (Some ["x"]) [] empty_world)) = 0.
Proof.
  apply (supplied_ids_generate_nothing demo_embedding demo_auto_id
           default_config (Seq ["a.png"]) None (Some ["x"])
           ([] : list (string * demo_any)) empty_world).
  reflexivity.
Defined.

Lemma one_shot_iterator_is_a_silent_noop_witness :
  let o :=
    demo_add_images default_config (Iter ["a.png"; "bb.png"])
      (Some [[("k", "v")]; []]) None [] one_doc_world in
  res o = inr [] ∧ embed_calls (log o) = [] ∧ staged (log o) = [] ∧
  commits (log o) = [[]] ∧ final o = one_doc_world.
Proof.
  intros o.
  apply (one_shot_iterator_is_a_silent_noop demo_embedding demo_auto_id
           default_config ["a.png"; "bb.png"] (Some [[("k", "v")]; []]) None
           ([] : list (string * demo_any)) one_doc_world).
  - discriminate.
  - right. reflexivity.
  - left. reflexivity.
Defined.
